(** * correct_cslc_amplitude.py: thermal-noise correction and radiometric
    normalization of a CSLC amplitude raster, and its GeoTIFF writer.

    The script is embedded as a state-and-error monad over a heap of numpy
    arrays (so that in-place numpy operations and aliasing are visible) and a
    trace of I/O events.  Floating-point values are modelled as real numbers
    extended with NaN (no rounding, no overflow); the two correction steps are
    also given over IEEE binary64, Rocq's primitive floats, where the range
    of the values computed matters. *)

From Stdlib Require Import String Reals Lra Lia List ZArith Bool.
From Stdlib Require Floats.
Import (notations) PrimFloat.
Import ListNotations.
Set Warnings "-register-all".
Open Scope R_scope.

(** ** Scalars: a float value is a finite real or NaN. *)

Inductive f64 : Type :=
| Fin (x : R)
| NaN.

(** [x ** 2] *)
Definition fsq (v : f64) : f64 :=
  match v with Fin x => Fin (x * x) | NaN => NaN end.

(** [x - y] *)
Definition fsub (v w : f64) : f64 :=
  match v, w with Fin x, Fin y => Fin (x - y) | _, _ => NaN end.

(** [x * y] *)
Definition fmul (v w : f64) : f64 :=
  match v, w with Fin x, Fin y => Fin (x * y) | _, _ => NaN end.

(** [x < 0.0]; every comparison with NaN is false. *)
Definition flt0 (v : f64) : bool :=
  match v with
  | Fin x => if Rlt_dec x 0 then true else false
  | NaN => false
  end.

(** [np.sqrt]: a negative argument gives NaN. *)
Definition fsqrt (v : f64) : f64 :=
  match v with
  | Fin x => if Rlt_dec x 0 then NaN else Fin (sqrt x)
  | NaN => NaN
  end.

(** ** Two-dimensional numpy arrays, stored row-major. *)

Record ndarray : Type := mk_ndarray {
  nrows : nat;
  ncols : nat;
  elems : list f64
}.

Definition shape (a : ndarray) : nat * nat := (nrows a, ncols a).

Definition wf (a : ndarray) : Prop :=
  length (elems a) = (nrows a * ncols a)%nat.

(** [a[i, j]] *)
Definition item (a : ndarray) (i j : nat) : option f64 :=
  nth_error (elems a) (i * ncols a + j).

(** Elementwise unary operation; allocates a new array. *)
Definition amap (f : f64 -> f64) (a : ndarray) : ndarray :=
  mk_ndarray (nrows a) (ncols a) (map f (elems a)).

(** numpy broadcasting of one dimension: equal, or one of them is 1. *)
Definition bdim (m n : nat) : option nat :=
  if Nat.eqb m n then Some m
  else if Nat.eqb m 1 then Some n
  else if Nat.eqb n 1 then Some m
  else None.

(** A dimension [d] broadcasts to [r]. *)
Definition bfits (d r : nat) : Prop := d = r \/ d = 1%nat.

(** Element [(i, j)] of the broadcast view of [a]. *)
Definition bget (a : ndarray) (i j : nat) : f64 :=
  nth ((if Nat.eqb (nrows a) 1 then 0%nat else i) * ncols a
       + (if Nat.eqb (ncols a) 1 then 0%nat else j))%nat (elems a) NaN.

(** Elementwise binary operation with broadcasting; [None] is the
    [ValueError] numpy raises when the shapes cannot be broadcast. *)
Definition bin (f : f64 -> f64 -> f64) (a b : ndarray) : option ndarray :=
  match bdim (nrows a) (nrows b), bdim (ncols a) (ncols b) with
  | Some r, Some c =>
      Some (mk_ndarray r c
              (map (fun k => f (bget a (k / c) (k mod c)) (bget b (k / c) (k mod c)))
                   (seq 0 (r * c))))
  | _, _ => None
  end.

(** In-place [a *= b]: the broadcast result must keep the shape of [a]
    (numpy: "non-broadcastable output operand"). *)
Definition imul (a b : ndarray) : option ndarray :=
  match bin fmul a b with
  | Some c => if ((nrows c =? nrows a) && (ncols c =? ncols a))%nat then Some c else None
  | None => None
  end.

(** In-place masked assignment [a[a < 0.0] = 0.0]. *)
Definition clamp (v : f64) : f64 := if flt0 v then Fin 0 else v.

(** ** Python values handed to GDAL/OSR (geotransform and EPSG arguments). *)

Inductive pyval : Type :=
| VInt (z : Z)
| VFloat (x : R)
| VTuple (vs : list pyval).

(** A geotransform GDAL accepts: a sequence of six numbers. *)
Definition is_number (v : pyval) : bool :=
  match v with VInt _ | VFloat _ => true | VTuple _ => false end.

Definition is_geotransform (v : pyval) : bool :=
  match v with
  | VTuple vs => (Nat.eqb (length vs) 6 && forallb is_number vs)%bool
  | _ => false
  end.

(** ** The external collaborators (module [h5_helpers], and the EPSG
    database of OSR), taken as arbitrary functions. *)

Record env : Type := mk_env {
  DATA_PATH : string;
  get_cslc_amplitude : string -> string -> ndarray;
  get_dataset_geotransform : string -> string -> pyval;
  get_resampled_noise_correction : string -> nat * nat -> pyval -> ndarray;
  get_radiometric_normalization_correction : string -> ndarray;
  (** [srs.ImportFromEPSG(code); srs.ExportToWkt()] for an integer code *)
  epsg_to_wkt : Z -> string;
  (** whether [driver.Create] can create the file at this path *)
  can_create : string -> bool
}.

(** Command-line arguments, as produced by [get_parser]. *)
Record cli_args : Type := mk_args {
  cslc_path : string;
  cslc_static_path : string;
  out_path : string;
  pol : string;
  apply_noise_correction : bool;
  apply_radiometric_normalization : bool
}.

(** The GeoTIFF written by [save_amplitude]. *)
Record raster : Type := mk_raster {
  r_width : nat;
  r_length : nat;
  r_bands : nat;
  r_options : list string;
  r_geotransform : pyval;
  r_projection : string;
  r_band1 : ndarray
}.

Inductive event : Type :=
| ReadAmplitude (path p : string)
| ReadGeotransform (path dset : string)
| ReadNoise (static : string)
| ReadRadiometric (static : string)
| CreateFile (path : string)
| WriteRaster (path : string) (r : raster).

Inductive exn : Type :=
| ValueError     (* numpy: shapes cannot be broadcast *)
| TypeError      (* SWIG argument conversion in GDAL/OSR *)
| OverflowError  (* SWIG: a Python int outside the range of a C int *)
| AttributeError. (* method called on [None] *)

(** ** State and error monad over a heap of arrays and an event trace. *)

Definition loc := nat.

Record world : Type := mk_world {
  heap : list ndarray;
  trace : list event
}.

Definition M (A : Type) : Type := world -> (exn + A) * world.

Definition ret {A} (x : A) : M A := fun w => (inr x, w).

Definition bind {A B} (m : M A) (k : A -> M B) : M B :=
  fun w => match m w with
           | (inr x, w') => k x w'
           | (inl e, w') => (inl e, w')
           end.

Notation "x <- m ;; k" := (bind m (fun x => k))
  (at level 61, m at next level, right associativity).

Definition raise {A} (e : exn) : M A := fun w => (inl e, w).

Definition emit (ev : event) : M unit :=
  fun w => (inr tt, mk_world (heap w) (trace w ++ [ev])).

Definition empty_array : ndarray := mk_ndarray 0 0 [].

Definition alloc (a : ndarray) : M loc :=
  fun w => (inr (length (heap w)), mk_world (heap w ++ [a]) (trace w)).

Definition load (l : loc) : M ndarray :=
  fun w => (inr (nth l (heap w) empty_array), w).

Fixpoint list_set {A} (l : list A) (n : nat) (x : A) : list A :=
  match l, n with
  | [], _ => []
  | _ :: t, O => x :: t
  | y :: t, S n' => y :: list_set t n' x
  end.

Definition store (l : loc) (a : ndarray) : M unit :=
  fun w => (inr tt, mk_world (list_set (heap w) l a) (trace w)).

Definition lift_opt {A} (o : option A) (e : exn) : M A :=
  match o with Some x => ret x | None => raise e end.

(** ** The script. *)

(** [save_amplitude(amplitude_arr, geotransform_cslc, epsg_cslc,
    amplitude_filename)]: [ImportFromEPSG] converts its argument to a C int
    (a non-integer is a [TypeError], an integer outside
    [-2^31, 2^31 - 1] an [OverflowError]); a failed [driver.Create] returns
    [None], whose [SetGeoTransform] is an [AttributeError];
    [SetGeoTransform] needs a sequence of six numbers. *)
Definition osr_import_epsg (E : env) (epsg : pyval) : M string :=
  match epsg with
  | VInt code =>
      if ((-2147483648 <=? code) && (code <=? 2147483647))%Z
      then ret (epsg_to_wkt E code) else raise OverflowError
  | _ => raise TypeError
  end.

Definition save_amplitude (E : env) (amplitude_arr : ndarray)
    (geotransform_cslc epsg_cslc : pyval) (amplitude_filename : string) : M unit :=
  projection_out <- osr_import_epsg E epsg_cslc;;
  let length_mosaic := nrows amplitude_arr in
  let width_mosaic := ncols amplitude_arr in
  if can_create E amplitude_filename then
    _ <- emit (CreateFile amplitude_filename);;
    if is_geotransform geotransform_cslc then
      emit (WriteRaster amplitude_filename
              (mk_raster width_mosaic length_mosaic 1
                 ["COMPRESS=LZW"; "BIGTIFF=YES"]%string
                 geotransform_cslc projection_out amplitude_arr))
    else raise TypeError
  else raise AttributeError.

Definition read_amplitude (E : env) (path p : string) : M loc :=
  _ <- emit (ReadAmplitude path p);;
  alloc (get_cslc_amplitude E path p).

Definition read_geotransform (E : env) (path dset : string) : M pyval :=
  _ <- emit (ReadGeotransform path dset);;
  ret (get_dataset_geotransform E path dset).

(** Lines 123-141 of [main]: [cslc_amplitude_arr] is the heap location
    [cslc]; the returned location is the array [main] finally holds. *)
Definition correct_amplitude (E : env) (args : cli_args) (cslc_geotransform : pyval)
    (cslc : loc) : M loc :=
  cur <- (if apply_noise_correction args then
            A <- load cslc;;
            _ <- emit (ReadNoise (cslc_static_path args));;
            n <- alloc (get_resampled_noise_correction E (cslc_static_path args)
                          (shape A) cslc_geotransform);;
            N <- load n;;
            (* cslc_amplitude_arr ** 2 - noise_correction_arr *)
            sq <- alloc (amap fsq A);;
            SQ <- load sq;;
            D <- lift_opt (bin fsub SQ N) ValueError;;
            t <- alloc D;;
            (* cslc_amplitude_arr[cslc_amplitude_arr < 0.0] = 0.0 *)
            T <- load t;;
            _ <- store t (amap clamp T);;
            (* np.sqrt(cslc_amplitude_arr) *)
            T' <- load t;;
            alloc (amap fsqrt T')
          else ret cslc);;
  if apply_radiometric_normalization args then
    _ <- emit (ReadRadiometric (cslc_static_path args));;
    r <- alloc (get_radiometric_normalization_correction E (cslc_static_path args));;
    Rn <- load r;;
    C <- load cur;;
    (* cslc_amplitude_arr *= radiometric_normalization_arr *)
    C' <- lift_opt (imul C Rn) ValueError;;
    _ <- store cur C';;
    ret cur
  else ret cur.

Definition cslc_dataset_path (E : env) (args : cli_args) : string :=
  (DATA_PATH E ++ "/" ++ pol args)%string.

(** Lines 117-143 of [main]: the arguments of the final [save_amplitude]
    call. *)
Definition prepare (E : env) (args : cli_args) : M (ndarray * pyval * pyval) :=
  cslc <- read_amplitude E (cslc_path args) (pol args);;
  cslc_geotransform <- read_geotransform E (cslc_path args) (cslc_dataset_path E args);;
  cur <- correct_amplitude E args cslc_geotransform cslc;;
  epsg_cslc <- read_geotransform E (cslc_path args) (cslc_dataset_path E args);;
  arr <- load cur;;
  ret (arr, cslc_geotransform, epsg_cslc).

Definition main (E : env) (args : cli_args) : M unit :=
  if (negb (apply_noise_correction args)
      && negb (apply_radiometric_normalization args))%bool then ret tt
  else
    p <- prepare E args;;
    let '(arr, cslc_geotransform, epsg_cslc) := p in
    save_amplitude E arr cslc_geotransform epsg_cslc (out_path args).

(** ** The two correction steps as functions on arrays (lines 131-134 and
    141), and their composition under the two flags. *)

Definition noise_step (A N : ndarray) : option ndarray :=
  match bin fsub (amap fsq A) N with
  | Some T => Some (amap fsqrt (amap clamp T))
  | None => None
  end.

Definition radiometric_step (C Rn : ndarray) : option ndarray := imul C Rn.

Definition corrected (noise radio : bool) (A N Rn : ndarray) : option ndarray :=
  match (if noise then noise_step A N else Some A) with
  | Some A1 => if radio then radiometric_step A1 Rn else Some A1
  | None => None
  end.


(** ** The same two steps over IEEE binary64 ([numpy.float64]): rounding,
    overflow to infinity, and [inf * 0 = nan] are those of the hardware.
    Broadcasting is that of [bin] above. *)

Record ndarray64 : Type := mk_ndarray64 {
  nrows64 : nat;
  ncols64 : nat;
  elems64 : list PrimFloat.float
}.

Definition amap64 (f : PrimFloat.float -> PrimFloat.float) (a : ndarray64) : ndarray64 :=
  mk_ndarray64 (nrows64 a) (ncols64 a) (map f (elems64 a)).

Definition bget64 (a : ndarray64) (i j : nat) : PrimFloat.float :=
  nth ((if Nat.eqb (nrows64 a) 1 then 0%nat else i) * ncols64 a
       + (if Nat.eqb (ncols64 a) 1 then 0%nat else j))%nat (elems64 a) PrimFloat.nan.

Definition bin64 (f : PrimFloat.float -> PrimFloat.float -> PrimFloat.float)
    (a b : ndarray64) : option ndarray64 :=
  match bdim (nrows64 a) (nrows64 b), bdim (ncols64 a) (ncols64 b) with
  | Some r, Some c =>
      Some (mk_ndarray64 r c
              (map (fun k => f (bget64 a (k / c) (k mod c)) (bget64 b (k / c) (k mod c)))
                   (seq 0 (r * c))))
  | _, _ => None
  end.

Definition imul64 (a b : ndarray64) : option ndarray64 :=
  match bin64 PrimFloat.mul a b with
  | Some c =>
      if ((nrows64 c =? nrows64 a) && (ncols64 c =? ncols64 a))%nat then Some c else None
  | None => None
  end.

(** [x ** 2] *)
Definition fsq64 (v : PrimFloat.float) : PrimFloat.float := PrimFloat.mul v v.

(** [a[a < 0.0] = 0.0] at one element. *)
Definition clamp64 (v : PrimFloat.float) : PrimFloat.float :=
  if PrimFloat.ltb v 0%float then 0%float else v.

Definition noise_step64 (A N : ndarray64) : option ndarray64 :=
  match bin64 PrimFloat.sub (amap64 fsq64 A) N with
  | Some T => Some (amap64 PrimFloat.sqrt (amap64 clamp64 T))
  | None => None
  end.

Definition radiometric_step64 (C Rn : ndarray64) : option ndarray64 := imul64 C Rn.

Definition corrected64 (noise radio : bool) (A N Rn : ndarray64) : option ndarray64 :=
  match (if noise then noise_step64 A N else Some A) with
  | Some A1 => if radio then radiometric_step64 A1 Rn else Some A1
  | None => None
  end.

(** [v] is not negative: [v < 0.0] is false ([v] may be a zero of either
    sign, positive, [inf] or [nan]). *)
Definition notneg64 (v : PrimFloat.float) : Prop := PrimFloat.ltb v 0%float = false.

(** A finite value, and a finite non-negative value. *)
Definition is_fin (v : f64) : Prop := exists x, v = Fin x.
Definition nonneg (v : f64) : Prop := exists x, v = Fin x /\ 0 <= x.

(** ** Concrete inputs: the end-to-end scenario of the spec (amplitude
    [[2.0, 4.0]], noise [[0.0, 20.0]], radiometric factor [[1.0, 0.5]],
    geotransform (0, 1, 0, 0, 0, -1)). *)

Definition gt0 : pyval :=
  VTuple [VFloat 0; VFloat 1; VFloat 0; VFloat 0; VFloat 0; VFloat (-1)].

Definition amp0 : ndarray := mk_ndarray 1 2 [Fin 2; Fin 4].
Definition noise0 : ndarray := mk_ndarray 1 2 [Fin 0; Fin 20].
Definition radio0 : ndarray := mk_ndarray 1 2 [Fin 1; Fin (1 / 2)].

Definition env_with (A N Rn : ndarray) : env :=
  mk_env "/data"%string (fun _ _ => A) (fun _ _ => gt0) (fun _ _ _ => N) (fun _ => Rn)
    (fun _ => "WGS 84"%string) (fun _ => true).

Definition args_with (noise radio : bool) : cli_args :=
  mk_args "t_cslc.h5"%string "t_static.h5"%string "t_out.tif"%string "VV"%string
    noise radio.

Definition world_with (A : ndarray) : world := mk_world [A] [].

Definition E0 : env := env_with amp0 noise0 radio0.

(** Events that only read input data. *)
Definition is_read (ev : event) : bool :=
  match ev with
  | ReadAmplitude _ _ | ReadGeotransform _ _ | ReadNoise _ | ReadRadiometric _ => true
  | CreateFile _ | WriteRaster _ _ => false
  end.

(** What lines 131-141 compute at one pixel, from the amplitude [x], the
    noise [y] and the radiometric factor [z] at that pixel. *)
Definition pixel_correct (noise radio : bool) (x y z : f64) : f64 :=
  let x1 := if noise then fsqrt (clamp (fsub (fsq x) y)) else x in
  if radio then fmul x1 z else x1.

(** ** Heap lemmas *)

Lemma length_list_set {A} (l : list A) n x : length (list_set l n x) = length l.
Proof. revert n; induction l as [|y t IH]; intros [|n]; simpl; auto. Qed.

Lemma nth_list_set_same {A} (l : list A) n x d :
  (n < length l)%nat -> nth n (list_set l n x) d = x.
Proof.
  revert n; induction l as [|y t IH]; intros [|n] Hn; simpl in *;
    try lia; try reflexivity.
  apply IH; lia.
Qed.

Lemma nth_list_set_other {A} (l : list A) n m x d :
  n <> m -> nth m (list_set l n x) d = nth m l d.
Proof.
  revert n m; induction l as [|y t IH]; intros [|n] [|m] Hnm; simpl;
    try lia; try reflexivity.
  apply IH; lia.
Qed.

Lemma nth_app_last {A} (h : list A) x d : nth (length h) (h ++ [x]) d = x.
Proof. induction h; simpl; auto. Qed.

Lemma nth_app_lt {A} (h : list A) x n d :
  (n < length h)%nat -> nth n (h ++ [x]) d = nth n h d.
Proof. intros; apply app_nth1; auto. Qed.

Lemma list_set_app_last {A} (h : list A) x y :
  list_set (h ++ [x]) (length h) y = h ++ [y].
Proof. induction h; simpl; f_equal; auto. Qed.

Ltac heap_simpl :=
  repeat first
    [ rewrite nth_app_last
    | rewrite list_set_app_last
    | rewrite nth_app_lt by (rewrite ?length_app; simpl; lia)
    | rewrite nth_list_set_same by (rewrite ?length_app; simpl; lia) ].

Lemma correct_amplitude_run E args gt cslc w :
  (cslc < length (heap w))%nat ->
  let A := nth cslc (heap w) empty_array in
  let N := get_resampled_noise_correction E (cslc_static_path args) (shape A) gt in
  let Rn := get_radiometric_normalization_correction E (cslc_static_path args) in
  match corrected (apply_noise_correction args) (apply_radiometric_normalization args)
          A N Rn with
  | Some C => exists cur w', correct_amplitude E args gt cslc w = (inr cur, w')
                             /\ nth cur (heap w') empty_array = C
  | None => exists w', correct_amplitude E args gt cslc w = (inl ValueError, w')
  end.
Proof.
  destruct w as [h tr]; simpl heap; intros Hc A N Rn; subst A N Rn.
  destruct args as [cp sp op p [|] [|]];
  unfold correct_amplitude, corrected, noise_step, radiometric_step,
    bind, load, alloc, store, emit, lift_opt, ret, raise; cbn -[amap bin imul].
  all: heap_simpl.
  all: try (match goal with |- context [bin ?f ?a ?b] =>
              destruct (bin f a b) eqn:? end; cbn -[amap bin imul]).
  all: heap_simpl.
  all: try (match goal with |- context [imul ?a ?b] =>
              destruct (imul a b) eqn:? end; cbn -[amap bin imul]).
  all: first [ do 2 eexists; split; [reflexivity | cbn [heap]; heap_simpl; reflexivity]
             | eexists; reflexivity ].
Qed.

(** ** Arrays: indexing, broadcasting *)

Lemma divmod_ij c i j :
  (j < c)%nat -> ((i * c + j) / c = i /\ (i * c + j) mod c = j)%nat.
Proof.
  intros Hj.
  assert (Hd : ((i * c + j) / c = i)%nat).
  { rewrite Nat.div_add_l by lia. rewrite Nat.div_small by lia. lia. }
  split; [exact Hd|].
  pose proof (Nat.div_mod_eq (i * c + j) c) as Hm. rewrite Hd in Hm. nia.
Qed.

Lemma bdim_fits m n r : bdim m n = Some r -> bfits m r /\ bfits n r.
Proof.
  unfold bdim, bfits; intros H.
  destruct (Nat.eqb_spec m n); [injection H; intros; subst; auto|].
  destruct (Nat.eqb_spec m 1); [injection H; intros; subst; auto|].
  destruct (Nat.eqb_spec n 1); [injection H; intros; subst; auto|].
  discriminate.
Qed.

Lemma bget_in a r c i j :
  wf a -> bfits (nrows a) r -> bfits (ncols a) c -> (i < r)%nat -> (j < c)%nat ->
  In (bget a i j) (elems a).
Proof.
  unfold wf, bfits, bget; intros Hw Hr Hc Hi Hj.
  apply nth_In. rewrite Hw.
  assert (Hi' : ((if Nat.eqb (nrows a) 1 then 0%nat else i) < nrows a)%nat)
    by (destruct (Nat.eqb_spec (nrows a) 1); lia).
  assert (Hj' : ((if Nat.eqb (ncols a) 1 then 0%nat else j) < ncols a)%nat)
    by (destruct (Nat.eqb_spec (ncols a) 1); lia).
  nia.
Qed.

Lemma bget_item a i j :
  wf a -> (i < nrows a)%nat -> (j < ncols a)%nat -> item a i j = Some (bget a i j).
Proof.
  unfold wf, item, bget; intros Hw Hi Hj.
  replace (if Nat.eqb (nrows a) 1 then 0%nat else i) with i
    by (destruct (Nat.eqb_spec (nrows a) 1); lia).
  replace (if Nat.eqb (ncols a) 1 then 0%nat else j) with j
    by (destruct (Nat.eqb_spec (ncols a) 1); lia).
  apply nth_error_nth'. rewrite Hw. nia.
Qed.

Lemma bin_shape f a b c :
  bin f a b = Some c ->
  bdim (nrows a) (nrows b) = Some (nrows c) /\ bdim (ncols a) (ncols b) = Some (ncols c)
  /\ wf c.
Proof.
  unfold bin; destruct (bdim (nrows a) (nrows b)) as [r|] eqn:Hr;
    destruct (bdim (ncols a) (ncols b)) as [k|] eqn:Hk; try discriminate.
  intros H; injection H; intros; subst c; simpl.
  unfold wf; simpl; rewrite length_map, length_seq; auto.
Qed.

Lemma bin_item f a b c i j :
  bin f a b = Some c -> (i < nrows c)%nat -> (j < ncols c)%nat ->
  item c i j = Some (f (bget a i j) (bget b i j)).
Proof.
  unfold bin; destruct (bdim (nrows a) (nrows b)) as [r|] eqn:Hr;
    destruct (bdim (ncols a) (ncols b)) as [k|] eqn:Hk; try discriminate.
  intros H; injection H; intros; subst c; simpl in *.
  unfold item; simpl.
  rewrite nth_error_map, nth_error_seq.
  destruct (Nat.ltb_spec (i * k + j) (r * k)); [|nia].
  simpl. destruct (divmod_ij k i j) as [-> ->]; auto.
Qed.

Lemma bin_forall (P Q : f64 -> Prop) f a b c :
  Forall P (elems a) -> Forall Q (elems b) -> wf a -> wf b -> bin f a b = Some c ->
  Forall (fun z => exists x y, P x /\ Q y /\ z = f x y) (elems c).
Proof.
  intros HP HQ Ha Hb.
  unfold bin; destruct (bdim (nrows a) (nrows b)) as [r|] eqn:Hr;
    destruct (bdim (ncols a) (ncols b)) as [k|] eqn:Hk; try discriminate.
  intros H; injection H; intros; subst c; simpl.
  apply bdim_fits in Hr as [Hra Hrb]; apply bdim_fits in Hk as [Hka Hkb].
  apply Forall_map, Forall_forall; intros n Hn.
  apply in_seq in Hn.
  assert (Hk0 : (k <> 0)%nat) by (intro; subst; lia).
  assert (Hi : (n / k < r)%nat) by (apply Nat.Div0.div_lt_upper_bound; lia).
  assert (Hj : (n mod k < k)%nat) by (apply Nat.mod_upper_bound; auto).
  rewrite Forall_forall in HP, HQ.
  do 2 eexists; split; [|split; [|reflexivity]].
  - apply HP; eapply bget_in; eauto.
  - apply HQ; eapply bget_in; eauto.
Qed.

Lemma amap_item f a i j : item (amap f a) i j = option_map f (item a i j).
Proof. unfold item, amap; simpl; apply nth_error_map. Qed.

Lemma amap_wf f a : wf a -> wf (amap f a).
Proof. unfold wf, amap; simpl; rewrite length_map; auto. Qed.

Lemma sqrt_clamp x : fsqrt (clamp (Fin x)) = Fin (sqrt (Rmax x 0)).
Proof.
  unfold clamp, flt0, fsqrt.
  destruct (Rlt_dec x 0) as [Hx|Hx].
  - destruct (Rlt_dec 0 0); [lra|]. rewrite Rmax_right by lra; reflexivity.
  - destruct (Rlt_dec x 0); [lra|]. rewrite Rmax_left by lra; reflexivity.
Qed.

Lemma bdim_same m : bdim m m = Some m.
Proof. unfold bdim; rewrite Nat.eqb_refl; reflexivity. Qed.

Lemma bin_same_shape f a b :
  wf a -> wf b -> shape a = shape b ->
  exists c, bin f a b = Some c /\ shape c = shape a /\ wf c /\
    forall i j x y, (i < nrows a)%nat -> (j < ncols a)%nat ->
      item a i j = Some x -> item b i j = Some y -> item c i j = Some (f x y).
Proof.
  unfold shape; intros Ha Hb Hs; injection Hs; intros Hc Hr.
  destruct (bin f a b) as [c|] eqn:Hbin.
  - exists c; split; [reflexivity|].
    destruct (bin_shape _ _ _ _ Hbin) as (H1 & H2 & Hw).
    rewrite <- Hr, bdim_same in H1; rewrite <- Hc, bdim_same in H2.
    injection H1; injection H2; intros E2 E1.
    split; [rewrite E1, E2; reflexivity|split; [exact Hw|]].
    intros i j x y Hi Hj Hx Hy.
    rewrite (bin_item _ _ _ _ _ _ Hbin) by lia.
    rewrite bget_item in Hx by auto; rewrite bget_item in Hy by (try assumption; lia).
    injection Hx; injection Hy; intros -> ->; reflexivity.
  - unfold bin in Hbin; rewrite <- Hr, <- Hc, !bdim_same in Hbin; discriminate.
Qed.

(** The result of [correct_amplitude] is the one [corrected] computes. *)
Lemma correct_amplitude_ok E args gt cslc w cur w' :
  (cslc < length (heap w))%nat ->
  correct_amplitude E args gt cslc w = (inr cur, w') ->
  corrected (apply_noise_correction args) (apply_radiometric_normalization args)
    (nth cslc (heap w) empty_array)
    (get_resampled_noise_correction E (cslc_static_path args)
       (shape (nth cslc (heap w) empty_array)) gt)
    (get_radiometric_normalization_correction E (cslc_static_path args))
  = Some (nth cur (heap w') empty_array).
Proof.
  intros Hc Hrun. pose proof (correct_amplitude_run E args gt cslc w Hc) as H.
  simpl in H.
  destruct (corrected _ _ _ _ _) as [C|].
  - destruct H as (cur0 & w0 & Hr & Hn). rewrite Hrun in Hr.
    injection Hr; intros; subst; reflexivity.
  - destruct H as (w0 & Hr). rewrite Hrun in Hr; discriminate.
Qed.

Lemma correct_amplitude_fails E args gt cslc w :
  (cslc < length (heap w))%nat ->
  (exists e w', correct_amplitude E args gt cslc w = (inl e, w')) <->
  corrected (apply_noise_correction args) (apply_radiometric_normalization args)
    (nth cslc (heap w) empty_array)
    (get_resampled_noise_correction E (cslc_static_path args)
       (shape (nth cslc (heap w) empty_array)) gt)
    (get_radiometric_normalization_correction E (cslc_static_path args))
  = None.
Proof.
  intros Hc. pose proof (correct_amplitude_run E args gt cslc w Hc) as H.
  simpl in H.
  destruct (corrected _ _ _ _ _) as [C|].
  - destruct H as (cur0 & w0 & Hr & Hn). split.
    + intros (e & w' & He); rewrite Hr in He; discriminate.
    + discriminate.
  - destruct H as (w0 & Hr). split; [reflexivity|]. intros _; eauto.
Qed.

(** ** Claims *)

(** C1: with noise correction requested (and no normalization), for an
    amplitude grid [A] and a noise grid [N] of the same shape, the corrected
    grid has the shape of [A] and every pixel is
    [sqrt(max(A[i,j]^2 - N[i,j], 0))]. *)
Theorem noise_correction_pixel E args gt cslc w :
  apply_noise_correction args = true ->
  apply_radiometric_normalization args = false ->
  (cslc < length (heap w))%nat ->
  let A := nth cslc (heap w) empty_array in
  let N := get_resampled_noise_correction E (cslc_static_path args) (shape A) gt in
  wf A -> wf N -> shape N = shape A ->
  exists cur w', correct_amplitude E args gt cslc w = (inr cur, w') /\
    let A' := nth cur (heap w') empty_array in
    shape A' = shape A /\
    forall i j a n, (i < nrows A)%nat -> (j < ncols A)%nat ->
      item A i j = Some (Fin a) -> item N i j = Some (Fin n) ->
      item A' i j = Some (Fin (sqrt (Rmax (a * a - n) 0))).
Proof.
  intros Hnf Hrf Hc A N HA HN Hs.
  pose proof (correct_amplitude_run E args gt cslc w Hc) as Hrun; simpl in Hrun.
  fold A N in Hrun. rewrite Hnf, Hrf in Hrun.
  unfold corrected, noise_step in Hrun.
  destruct (bin_same_shape fsub (amap fsq A) N) as (D & Hb & HsD & HwD & Hpix);
    [apply amap_wf; auto | auto | rewrite Hs; reflexivity |].
  rewrite Hb in Hrun. destruct Hrun as (cur & w' & Hr & Hn).
  exists cur, w'; split; [exact Hr|]; simpl; rewrite Hn.
  split; [exact HsD|].
  intros i j a n Hi Hj Ha Hn'.
  rewrite !amap_item.
  rewrite (Hpix i j (fsq (Fin a)) (Fin n)) by (simpl; auto; rewrite amap_item, Ha; reflexivity).
  simpl. rewrite sqrt_clamp. reflexivity.
Qed.

(** C2: with both corrections requested, the result is the radiometric
    step applied to the complete result of the noise step (clamp
    included); if either step fails, the whole correction fails. *)
Theorem noise_then_normalization E args gt cslc w :
  apply_noise_correction args = true ->
  apply_radiometric_normalization args = true ->
  (cslc < length (heap w))%nat ->
  let A := nth cslc (heap w) empty_array in
  let N := get_resampled_noise_correction E (cslc_static_path args) (shape A) gt in
  let Rn := get_radiometric_normalization_correction E (cslc_static_path args) in
  match noise_step A N with
  | Some A1 =>
      match radiometric_step A1 Rn with
      | Some C => exists cur w', correct_amplitude E args gt cslc w = (inr cur, w')
                                 /\ nth cur (heap w') empty_array = C
      | None => exists e w', correct_amplitude E args gt cslc w = (inl e, w')
      end
  | None => exists e w', correct_amplitude E args gt cslc w = (inl e, w')
  end.
Proof.
  intros Hnf Hrf Hc A N Rn.
  pose proof (correct_amplitude_run E args gt cslc w Hc) as Hrun; simpl in Hrun.
  fold A N Rn in Hrun. rewrite Hnf, Hrf in Hrun.
  unfold corrected in Hrun.
  destruct (noise_step A N) as [A1|]; [destruct (radiometric_step A1 Rn) as [C|]|];
    [exact Hrun | destruct Hrun as (w' & Hw); eauto | destruct Hrun as (w' & Hw); eauto].
Qed.

(** C3: with only radiometric normalization requested, for [A] and [R] of
    the same shape, the result has the shape of [A] and every pixel is
    [A[i,j] * R[i,j]]. *)
Theorem normalization_pixel E args gt cslc w :
  apply_noise_correction args = false ->
  apply_radiometric_normalization args = true ->
  (cslc < length (heap w))%nat ->
  let A := nth cslc (heap w) empty_array in
  let Rn := get_radiometric_normalization_correction E (cslc_static_path args) in
  wf A -> wf Rn -> shape Rn = shape A ->
  exists cur w', correct_amplitude E args gt cslc w = (inr cur, w') /\
    let A' := nth cur (heap w') empty_array in
    shape A' = shape A /\
    forall i j a r, (i < nrows A)%nat -> (j < ncols A)%nat ->
      item A i j = Some (Fin a) -> item Rn i j = Some (Fin r) ->
      item A' i j = Some (Fin (a * r)).
Proof.
  intros Hnf Hrf Hc A Rn HA HR Hs.
  pose proof (correct_amplitude_run E args gt cslc w Hc) as Hrun; simpl in Hrun.
  fold A Rn in Hrun. rewrite Hnf, Hrf in Hrun.
  unfold corrected, radiometric_step, imul in Hrun.
  destruct (bin_same_shape fmul A Rn) as (C & Hb & HsC & HwC & Hpix); auto.
  rewrite Hb in Hrun. unfold shape in HsC; injection HsC; intros E2 E1.
  rewrite E1, E2, !Nat.eqb_refl in Hrun; simpl in Hrun.
  destruct Hrun as (cur & w' & Hr & Hn).
  exists cur, w'; split; [exact Hr|]; simpl; rewrite Hn.
  split; [unfold shape; rewrite E1, E2; reflexivity|].
  intros i j a r Hi Hj Ha Hr'.
  rewrite (Hpix i j (Fin a) (Fin r)) by auto. reflexivity.
Qed.

(** C4 (as stated: a grid of another shape always makes the correction
    fail) is refuted: a 1x2 noise grid is silently broadcast over a 2x2
    amplitude grid. *)
Lemma broadcast_no_error :
  let A := mk_ndarray 2 2 [Fin 1; Fin 2; Fin 3; Fin 4] in
  let N := mk_ndarray 1 2 [Fin 0; Fin 0] in
  shape N <> shape A /\
  exists cur w', correct_amplitude (env_with A N radio0) (args_with true false) gt0 0%nat
                   (world_with A) = (inr cur, w').
Proof.
  split; [discriminate|].
  do 2 eexists; reflexivity.
Qed.

(** The arguments [main] hands to [save_amplitude]: the geotransform and
    the "EPSG" value both come from [get_dataset_geotransform] on the same
    dataset. *)
Lemma prepare_args E args w arr gt epsg w' :
  prepare E args w = (inr (arr, gt, epsg), w') ->
  gt = get_dataset_geotransform E (cslc_path args) (cslc_dataset_path E args) /\
  epsg = get_dataset_geotransform E (cslc_path args) (cslc_dataset_path E args).
Proof.
  unfold prepare, bind, read_amplitude, read_geotransform, emit, alloc, ret, load; simpl.
  match goal with |- context [correct_amplitude ?E ?a ?g ?c ?w] =>
    destruct (correct_amplitude E a g c w) as [[e|cur] w1] end;
    intros H; [discriminate|].
  injection H; intros; subst; auto.
Qed.

(** C5 (code bug): at the spec's end-to-end input, the value [main] passes
    as [epsg_cslc] is the geotransform tuple, not the integer 4326; OSR
    rejects it with a [TypeError] before any output file is created. *)
Theorem epsg_is_geotransform :
  (exists arr w', prepare E0 (args_with true true) (mk_world [] [])
                  = (inr (arr, gt0, gt0), w'))
  /\ exists w', main E0 (args_with true true) (mk_world [] []) = (inl TypeError, w')
                /\ forall p, ~ In (CreateFile p) (trace w').
Proof.
  split.
  - do 2 eexists; reflexivity.
  - eexists; split; [reflexivity|].
    intros p H; simpl in H.
    repeat (destruct H as [H|H]; [discriminate|]); exact H.
Qed.

(** C7: the geotransform handed to [save_amplitude] is the one read from
    the source dataset, whatever corrections are requested, and
    [save_amplitude] writes it unchanged into the raster it creates. *)
Theorem geotransform_propagated E args w arr gt epsg w' :
  prepare E args w = (inr (arr, gt, epsg), w') ->
  gt = get_dataset_geotransform E (cslc_path args) (cslc_dataset_path E args) /\
  forall epsg' path w1 w2,
    save_amplitude E arr gt epsg' path w1 = (inr tt, w2) ->
    exists r, trace w2 = trace w1 ++ [CreateFile path; WriteRaster path r]
              /\ r_geotransform r = gt.
Proof.
  intros Hp; split; [apply (prepare_args _ _ _ _ _ _ _ Hp)|].
  intros epsg' path w1 w2.
  unfold save_amplitude, osr_import_epsg, bind, emit, ret, raise.
  destruct epsg'; try discriminate.
  destruct (_ && _)%bool; [|discriminate].
  destruct (can_create E path); [|discriminate].
  destruct (is_geotransform gt); [|discriminate].
  intros H; injection H; intros; subst; simpl.
  eexists; split; [rewrite <- app_assoc; reflexivity | reflexivity].
Qed.

Lemma geotransform_propagated_witness :
  exists arr w', prepare E0 (args_with false true) (mk_world [] [])
                 = (inr (arr, gt0, gt0), w')
    /\ (gt0 = get_dataset_geotransform E0 (cslc_path (args_with false true))
                (cslc_dataset_path E0 (args_with false true))
        /\ forall epsg' path w1 w2,
             save_amplitude E0 arr gt0 epsg' path w1 = (inr tt, w2) ->
             exists r, trace w2 = trace w1 ++ [CreateFile path; WriteRaster path r]
                       /\ r_geotransform r = gt0).
Proof.
  assert (H : exists arr w', prepare E0 (args_with false true) (mk_world [] [])
                             = (inr (arr, gt0, gt0), w'))
    by (do 2 eexists; reflexivity).
  destruct H as (arr & w' & H).
  exists arr, w'; split; [exact H|].
  exact (geotransform_propagated _ _ _ _ _ _ _ H).
Defined.

(** C9: with both corrections disabled, [main] returns at once: no array
    is read, nothing is computed or written, the world is unchanged. *)
Theorem both_disabled_noop E args w :
  apply_noise_correction args = false ->
  apply_radiometric_normalization args = false ->
  main E args w = (inr tt, w).
Proof.
  intros Hn Hr; unfold main; rewrite Hn, Hr; reflexivity.
Qed.

Lemma both_disabled_noop_witness :
  main E0 (args_with false false) (mk_world [] []) = (inr tt, mk_world [] []).
Proof. apply both_disabled_noop; reflexivity. Defined.

Lemma nth_app_eq {A} (h : list A) x n d : n = length h -> nth n (h ++ [x]) d = x.
Proof. intros ->; apply nth_app_last. Qed.

Ltac len_tac :=
  repeat (rewrite length_app || rewrite length_list_set); simpl; lia.

Ltac heap_simpl_all :=
  repeat first
    [ rewrite nth_app_last
    | rewrite list_set_app_last
    | rewrite nth_app_lt by len_tac
    | rewrite nth_app_eq by len_tac
    | rewrite nth_list_set_same by len_tac
    | rewrite nth_list_set_other by len_tac ].

Ltac run_cases H :=
  repeat (match type of H with
          | context [bin ?f ?a ?b] => destruct (bin f a b) eqn:?
          | context [imul ?a ?b] => destruct (imul a b) eqn:?
          end; cbn -[amap bin imul] in H);
  try discriminate; injection H; intros; subst.

(** C6 (as stated: the inputs are never mutated and the result is always
    new) is refuted: with only normalization requested, [*=] overwrites
    the amplitude array read from the product, and that same array is the
    result. *)
Lemma amplitude_mutated_in_place :
  exists w', correct_amplitude E0 (args_with false true) gt0 0%nat (world_with amp0)
             = (inr 0%nat, w')
             /\ nth 0 (heap w') empty_array <> amp0.
Proof.
  eexists; split; [reflexivity|].
  simpl. intro H; injection H; intros; lra.
Qed.

(** C6 (amended): with noise correction requested, every array that
    existed before (the amplitude array among them) is unchanged, the
    result is a newly allocated array, and the noise and radiometric
    arrays are left as read.  With only normalization requested, the
    amplitude array itself is multiplied in place and is the result; the
    radiometric array and every other array are unchanged. *)
Theorem inputs_preserved_or_inplace E args gt cslc w cur w' :
  (cslc < length (heap w))%nat ->
  correct_amplitude E args gt cslc w = (inr cur, w') ->
  let h := heap w in
  let A := nth cslc h empty_array in
  let N := get_resampled_noise_correction E (cslc_static_path args) (shape A) gt in
  let Rn := get_radiometric_normalization_correction E (cslc_static_path args) in
  (apply_noise_correction args = true ->
     (forall l, (l < length h)%nat -> nth l (heap w') empty_array = nth l h empty_array)
     /\ (length h <= cur)%nat
     /\ nth (length h) (heap w') empty_array = N
     /\ (apply_radiometric_normalization args = true ->
         nth (length h + 4) (heap w') empty_array = Rn))
  /\
  (apply_noise_correction args = false -> apply_radiometric_normalization args = true ->
     cur = cslc
     /\ imul A Rn = Some (nth cslc (heap w') empty_array)
     /\ nth (length h) (heap w') empty_array = Rn
     /\ (forall l, (l < length h)%nat -> l <> cslc ->
         nth l (heap w') empty_array = nth l h empty_array)).
Proof.
  destruct w as [h tr]; simpl heap; intros Hc Hrun h0 A N Rn; subst h0 A N Rn.
  destruct args as [cp sp op p [|] [|]]; simpl;
    unfold correct_amplitude, bind, load, alloc, store, emit, lift_opt, ret, raise
      in Hrun; cbn -[amap bin imul] in Hrun;
    run_cases Hrun; simpl;
    (split; intros Hn; try discriminate; try (intros Hr; try discriminate)).
  - repeat split.
    + intros l Hl. heap_simpl_all. reflexivity.
    + len_tac.
    + heap_simpl_all. reflexivity.
    + intros _. heap_simpl_all. reflexivity.
  - repeat split.
    + intros l Hl. heap_simpl_all. reflexivity.
    + len_tac.
    + heap_simpl_all. reflexivity.
    + intros Hr; discriminate.
  - repeat split.
    + heap_simpl_all. rewrite nth_app_lt, nth_app_last in Heqo by lia. exact Heqo.
    + heap_simpl_all. reflexivity.
    + intros l Hl Hne. heap_simpl_all. reflexivity.
Qed.

Lemma clamp_nonneg v : is_fin v -> nonneg (clamp v).
Proof.
  intros [x ->]; unfold clamp, flt0, nonneg.
  destruct (Rlt_dec x 0); [exists 0|exists x]; split; auto; lra.
Qed.

Lemma sqrt_nonneg v : nonneg v -> nonneg (fsqrt v).
Proof.
  intros (x & -> & Hx); unfold fsqrt.
  destruct (Rlt_dec x 0); [lra|]. exists (sqrt x); split; auto. apply sqrt_pos.
Qed.

Lemma noise_diff_fin A N D :
  wf A -> wf N -> Forall is_fin (elems A) -> Forall is_fin (elems N) ->
  bin fsub (amap fsq A) N = Some D -> wf D /\ Forall is_fin (elems D).
Proof.
  intros HA HN HfA HfN Hb.
  split; [apply (bin_shape _ _ _ _ Hb)|].
  assert (Hsq : Forall is_fin (elems (amap fsq A))).
  { simpl; apply Forall_map. eapply Forall_impl; [|exact HfA].
    intros v [a ->]; eexists; reflexivity. }
  pose proof (bin_forall is_fin is_fin fsub _ _ _ Hsq HfN (amap_wf _ _ HA) HN Hb) as H.
  eapply Forall_impl; [|exact H].
  intros z (x & y & [a ->] & [b ->] & ->); eexists; reflexivity.
Qed.

(** ** Signs of IEEE binary64 results *)

Lemma prim2sf_zero : FloatOps.Prim2SF 0%float = SpecFloat.S754_zero false.
Proof. reflexivity. Qed.

Lemma notneg64_sf v :
  notneg64 v <->
  SpecFloat.SFltb (FloatOps.Prim2SF v) (SpecFloat.S754_zero false) = false.
Proof. unfold notneg64; rewrite FloatAxioms.ltb_spec, prim2sf_zero; tauto. Qed.

(** Rounding a positive significand never gives a negative value. *)
Lemma round_notneg m e l :
  SpecFloat.SFltb (SpecFloat.binary_round_aux FloatOps.prec FloatOps.emax false m e l)
    (SpecFloat.S754_zero false) = false.
Proof.
  unfold SpecFloat.binary_round_aux.
  destruct (SpecFloat.shr_fexp _ _ _ _ _) as [[m1 e1] l1].
  destruct (SpecFloat.shr_fexp _ _ _ _ _) as [[m2 e2] l2].
  destruct m2; [reflexivity| |reflexivity]; destruct (Z.leb _ _); reflexivity.
Qed.

Lemma nan_notneg : notneg64 PrimFloat.nan.
Proof. reflexivity. Qed.

Lemma sqrt_notneg v : notneg64 (PrimFloat.sqrt v).
Proof.
  apply notneg64_sf; rewrite FloatAxioms.sqrt_spec.
  unfold FloatAxioms.SF64sqrt, SpecFloat.SFsqrt.
  destruct (FloatOps.Prim2SF v) as [[]|[]| |[] m e]; try reflexivity.
  destruct (SpecFloat.SFsqrt_core_binary _ _ _ _) as [[mz ez] lz]. apply round_notneg.
Qed.

Lemma mul_notneg x y : notneg64 x -> notneg64 y -> notneg64 (PrimFloat.mul x y).
Proof.
  rewrite !notneg64_sf, FloatAxioms.mul_spec.
  unfold FloatAxioms.SF64mul, SpecFloat.SFmul.
  destruct (FloatOps.Prim2SF x) as [[]|[]| |[] m e]; try discriminate;
  destruct (FloatOps.Prim2SF y) as [[]|[]| |[] m' e']; try discriminate; intros _ _;
  try reflexivity.
  all: apply round_notneg.
Qed.

Lemma bin64_forall (P Q R : PrimFloat.float -> Prop) f a b c :
  P PrimFloat.nan -> Q PrimFloat.nan ->
  Forall P (elems64 a) -> Forall Q (elems64 b) ->
  (forall x y, P x -> Q y -> R (f x y)) ->
  bin64 f a b = Some c -> Forall R (elems64 c).
Proof.
  intros HPn HQn HP HQ Hf; unfold bin64.
  destruct (bdim _ _) as [r|]; [|discriminate].
  destruct (bdim _ _) as [k|]; [|discriminate].
  intros H; injection H; intros <-; simpl.
  apply Forall_forall; intros z Hz. apply in_map_iff in Hz. destruct Hz as (n & <- & _).
  apply Hf; unfold bget64;
    match goal with |- _ (nth ?n ?l ?d) =>
      destruct (nth_in_or_default n l d) as [Hin|Heq];
      [ rewrite Forall_forall in *; auto | rewrite Heq; auto ] end.
Qed.

(** C8 (as stated: non-negative inputs give a non-negative result) is
    refuted over float64: a finite non-negative amplitude whose square
    overflows gives [inf] after the noise step, and [inf * 0.0 = nan] after
    the normalization by a zero factor; [nan] is not [>= 0]. *)
Lemma nonneg_inputs_overflow :
  let A := mk_ndarray64 1 1 [0x1p600%float] in
  let N := mk_ndarray64 1 1 [0%float] in
  let Rn := mk_ndarray64 1 1 [0%float] in
  Forall (fun v => PrimFloat.is_finite v = true /\ PrimFloat.leb 0%float v = true)
    (elems64 A ++ elems64 N ++ elems64 Rn)
  /\ corrected64 true false A N Rn = Some (mk_ndarray64 1 1 [PrimFloat.infinity])
  /\ corrected64 true true A N Rn = Some (mk_ndarray64 1 1 [PrimFloat.nan])
  /\ PrimFloat.leb 0%float PrimFloat.nan = false.
Proof.
  intros A N Rn.
  split; [simpl; repeat constructor|].
  split; [reflexivity|split; reflexivity].
Qed.

(** C8 (amended): no pixel of the corrected grid is ever negative, for
    every combination of the two flags: if no amplitude and no radiometric
    factor is negative, every output pixel is [0.0], [-0.0], positive,
    [inf] or [nan] (the noise grid may hold anything: the clamp and
    [np.sqrt] never give a negative value).  Overflow can give [inf] and
    [inf * 0.0] gives [nan]. *)
Theorem corrected64_never_negative nf rf A N Rn C :
  Forall notneg64 (elems64 A) -> Forall notneg64 (elems64 Rn) ->
  corrected64 nf rf A N Rn = Some C -> Forall notneg64 (elems64 C).
Proof.
  intros HA HR. unfold corrected64, radiometric_step64, imul64.
  assert (H1 : forall A1, (if nf then noise_step64 A N else Some A) = Some A1 ->
                          Forall notneg64 (elems64 A1)).
  { destruct nf; intros A1 H; [|injection H; intros <-; exact HA].
    unfold noise_step64 in H; destruct (bin64 _ _ _) as [T|]; [|discriminate].
    injection H; intros <-; simpl.
    apply Forall_forall; intros v Hv; apply in_map_iff in Hv.
    destruct Hv as (x & <- & _); apply sqrt_notneg. }
  destruct (if nf then noise_step64 A N else Some A) as [A1|]; [|discriminate].
  specialize (H1 A1 eq_refl).
  destruct rf; [|intros H; injection H; intros <-; exact H1].
  destruct (bin64 PrimFloat.mul A1 Rn) as [D|] eqn:Hb; [|discriminate].
  destruct (_ && _)%bool; [|discriminate]. intros H; injection H; intros <-.
  exact (bin64_forall notneg64 notneg64 notneg64 _ _ _ _ nan_notneg nan_notneg H1 HR
           mul_notneg Hb).
Qed.

(** C10: for finite amplitude and noise grids, every value the noise step
    passes to [np.sqrt] (the difference after the clamp) is finite and
    non-negative, so the result of the noise step contains no NaN. *)
Theorem sqrt_argument_nonnegative A N D :
  wf A -> wf N -> Forall is_fin (elems A) -> Forall is_fin (elems N) ->
  bin fsub (amap fsq A) N = Some D ->
  Forall nonneg (elems (amap clamp D))
  /\ noise_step A N = Some (amap fsqrt (amap clamp D))
  /\ Forall (fun v => v <> NaN) (elems (amap fsqrt (amap clamp D))).
Proof.
  intros HA HN HfA HfN Hb.
  destruct (noise_diff_fin A N D) as [HwD HfD]; auto.
  assert (Hcl : Forall nonneg (elems (amap clamp D))).
  { simpl; apply Forall_map. eapply Forall_impl; [|exact HfD]. apply clamp_nonneg. }
  split; [exact Hcl|split].
  - unfold noise_step; rewrite Hb; reflexivity.
  - simpl; rewrite map_map; apply Forall_map.
    eapply Forall_impl; [|exact HfD]. intros v Hv.
    destruct (sqrt_nonneg _ (clamp_nonneg _ Hv)) as (x & Hx & _). rewrite Hx; discriminate.
Qed.

(** ** Witnesses: the theorems above applied at concrete inputs. *)

Ltac fin_tac :=
  simpl; repeat apply Forall_cons;
  first [apply Forall_nil | eexists; reflexivity].

Lemma noise_correction_pixel_witness :
  exists cur w', correct_amplitude E0 (args_with true false) gt0 0%nat (world_with amp0)
                 = (inr cur, w')
    /\ item (nth cur (heap w') empty_array) 0 1 = Some (Fin (sqrt (Rmax (4 * 4 - 20) 0))).
Proof.
  destruct (noise_correction_pixel E0 (args_with true false) gt0 0%nat (world_with amp0)
              eq_refl eq_refl ltac:(simpl; lia) eq_refl eq_refl eq_refl)
    as (cur & w' & Hr & _ & Hpix).
  exists cur, w'; split; [exact Hr|].
  apply (Hpix 0%nat 1%nat); simpl; try lia; reflexivity.
Defined.

Lemma noise_then_normalization_witness :
  exists cur w', correct_amplitude E0 (args_with true true) gt0 0%nat (world_with amp0)
                 = (inr cur, w').
Proof.
  pose proof (noise_then_normalization E0 (args_with true true) gt0 0%nat (world_with amp0)
                eq_refl eq_refl ltac:(simpl; lia)) as H.
  simpl in H. destruct H as (cur & w' & Hr & _). exists cur, w'; exact Hr.
Defined.

Lemma normalization_pixel_witness :
  exists cur w', correct_amplitude E0 (args_with false true) gt0 0%nat (world_with amp0)
                 = (inr cur, w')
    /\ item (nth cur (heap w') empty_array) 0 1 = Some (Fin (4 * (1 / 2))).
Proof.
  destruct (normalization_pixel E0 (args_with false true) gt0 0%nat (world_with amp0)
              eq_refl eq_refl ltac:(simpl; lia) eq_refl eq_refl eq_refl)
    as (cur & w' & Hr & _ & Hpix).
  exists cur, w'; split; [exact Hr|].
  apply (Hpix 0%nat 1%nat); simpl; try lia; reflexivity.
Defined.

Lemma inputs_preserved_or_inplace_witness :
  exists w', correct_amplitude E0 (args_with false true) gt0 0%nat (world_with amp0)
             = (inr 0%nat, w')
    /\ imul amp0 radio0 = Some (nth 0 (heap w') empty_array).
Proof.
  assert (H : exists w', correct_amplitude E0 (args_with false true) gt0 0%nat
                           (world_with amp0) = (inr 0%nat, w'))
    by (eexists; reflexivity).
  destruct H as (w' & H). exists w'; split; [exact H|].
  destruct (inputs_preserved_or_inplace E0 (args_with false true) gt0 0%nat (world_with amp0)
              0%nat w' ltac:(simpl; lia) H) as [_ H2].
  destruct (H2 eq_refl eq_refl) as (_ & Hm & _). exact Hm.
Defined.

Lemma corrected64_never_negative_witness :
  let A := mk_ndarray64 1 2 [0x1p600%float; 3%float] in
  let N := mk_ndarray64 1 2 [0%float; 20%float] in
  let Rn := mk_ndarray64 1 1 [0%float] in
  exists C, corrected64 true true A N Rn = Some C /\ Forall notneg64 (elems64 C).
Proof.
  intros A N Rn.
  assert (H : exists C, corrected64 true true A N Rn = Some C) by (eexists; reflexivity).
  destruct H as (C & H). exists C; split; [exact H|].
  apply (corrected64_never_negative true true A N Rn C);
    [repeat constructor | repeat constructor | exact H].
Defined.

Lemma sqrt_argument_nonnegative_witness :
  exists D, bin fsub (amap fsq amp0) noise0 = Some D
            /\ Forall nonneg (elems (amap clamp D)).
Proof.
  assert (H : exists D, bin fsub (amap fsq amp0) noise0 = Some D) by (eexists; reflexivity).
  destruct H as (D & H). exists D; split; [exact H|].
  exact (proj1 (sqrt_argument_nonnegative amp0 noise0 D eq_refl eq_refl
                  ltac:(fin_tac) ltac:(fin_tac) H)).
Defined.

(** ** Further properties of the script *)

Lemma save_amplitude_same_arg E arr v p w :
  exists e w', save_amplitude E arr v v p w = (inl e, w')
    /\ exists evs, trace w' = trace w ++ evs /\ Forall (fun ev => ev = CreateFile p) evs.
Proof.
  unfold save_amplitude, osr_import_epsg, bind, emit, ret, raise.
  destruct v as [z|x|vs].
  - destruct (_ && _)%bool; simpl;
      [|do 2 eexists; split; [reflexivity|]; exists []; rewrite app_nil_r; auto].
    destruct (can_create E p); simpl.
    + do 2 eexists; split; [reflexivity|]. exists [CreateFile p]; simpl; auto.
    + do 2 eexists; split; [reflexivity|]. exists []; rewrite app_nil_r; auto.
  - do 2 eexists; split; [reflexivity|]. exists []; rewrite app_nil_r; auto.
  - do 2 eexists; split; [reflexivity|]. exists []; rewrite app_nil_r; auto.
Qed.

Lemma correct_amplitude_trace E args gt cslc w r w' :
  correct_amplitude E args gt cslc w = (r, w') ->
  exists evs, trace w' = trace w ++ evs /\ Forall (fun ev => is_read ev = true) evs
    /\ (forall cur, r = inr cur ->
        evs = (if apply_noise_correction args then [ReadNoise (cslc_static_path args)] else [])
              ++ (if apply_radiometric_normalization args
                  then [ReadRadiometric (cslc_static_path args)] else [])).
Proof.
  destruct w as [h tr]; intros Hrun.
  destruct args as [cp sp op p [|] [|]];
    unfold correct_amplitude, bind, load, alloc, store, emit, lift_opt, ret, raise
      in Hrun; cbn -[amap bin imul] in Hrun;
    run_cases Hrun; simpl.
  all: first
    [ exists []; rewrite app_nil_r; split; [reflexivity|split; [constructor|]];
      intros; reflexivity
    | eexists; split; [rewrite <- ?app_assoc; reflexivity|];
      split; [repeat constructor|intros; try discriminate; reflexivity] ].
Qed.

Lemma prepare_trace E args w r w' :
  prepare E args w = (r, w') ->
  exists evs, trace w' = trace w ++ evs /\ Forall (fun ev => is_read ev = true) evs.
Proof.
  unfold prepare, bind, read_amplitude, read_geotransform, emit, alloc, ret, load; simpl.
  destruct (correct_amplitude _ _ _ _ _) as [[e|cur] w1] eqn:Hc;
    apply correct_amplitude_trace in Hc as (evs & Ht & Hf & _); simpl in Ht;
    intros H; injection H; intros; subst; simpl.
  - eexists; split; [rewrite Ht, <- !app_assoc; reflexivity|].
    repeat constructor; exact Hf.
  - eexists; split; [rewrite Ht, <- !app_assoc; reflexivity|].
    repeat constructor; try exact Hf.
    rewrite Forall_app; split; [exact Hf|repeat constructor].
Qed.

Lemma imul_none_iff a b :
  imul a b = None <->
  ~ (bdim (nrows a) (nrows b) = Some (nrows a) /\ bdim (ncols a) (ncols b) = Some (ncols a)).
Proof.
  unfold imul, bin.
  destruct (bdim (nrows a) (nrows b)) as [r|]; destruct (bdim (ncols a) (ncols b)) as [k|];
    simpl.
  - destruct (Nat.eqb_spec r (nrows a)), (Nat.eqb_spec k (ncols a)); simpl;
      split; intros H; try discriminate; try reflexivity.
    + exfalso; apply H; subst; auto.
    + intros [H1 H2]; injection H2; intros; contradiction.
    + intros [H1 H2]; injection H1; intros; contradiction.
    + intros [H1 H2]; injection H1; intros; contradiction.
  - split; [intros _ [_ H]; discriminate | reflexivity].
  - split; [intros _ [H _]; discriminate | reflexivity].
  - split; [intros _ [H _]; discriminate | reflexivity].
Qed.

(** When [corrected] fails: the noise step fails when [A] and [N] do not
    broadcast; the normalization fails when [R] does not broadcast to the
    shape of the array it multiplies in place. *)
Lemma corrected_none nf rf A N Rn :
  corrected nf rf A N Rn = None <->
  match (if nf then
           match bdim (nrows A) (nrows N), bdim (ncols A) (ncols N) with
           | Some r, Some c => Some (r, c)
           | _, _ => None
           end
         else Some (nrows A, ncols A)) with
  | None => True
  | Some (r, c) =>
      rf = true /\ ~ (bdim r (nrows Rn) = Some r /\ bdim c (ncols Rn) = Some c)
  end.
Proof.
  unfold corrected, noise_step, radiometric_step.
  assert (Hr : forall A1, (if rf then imul A1 Rn else Some A1) = None <->
               rf = true /\ ~ (bdim (nrows A1) (nrows Rn) = Some (nrows A1)
                               /\ bdim (ncols A1) (ncols Rn) = Some (ncols A1))).
  { intros A1; destruct rf; rewrite ?imul_none_iff.
    - split; [intros H; split; [reflexivity|exact H] | intros [_ H]; exact H].
    - split; [discriminate | intros [H _]; discriminate]. }
  destruct nf.
  - unfold bin; cbn [amap nrows ncols].
    destruct (bdim (nrows A) (nrows N)) as [r|]; [|split; auto].
    destruct (bdim (ncols A) (ncols N)) as [c|]; [|split; auto].
    exact (Hr _).
  - exact (Hr A).
Qed.

(** C4 (amended): there is no shape check of its own and no
    [ShapeMismatchError]; numpy broadcasting decides.  The correction fails
    exactly when the noise step is requested and [A] and [N] do not
    broadcast (a dimension differs and neither is 1), or when the
    normalization is requested and [R] does not broadcast to the shape of
    the array it multiplies in place ([A], or the broadcast shape of [A] and
    [N] after the noise step).  Every failure is a [ValueError], and the
    events a failed run adds are reads only: nothing is written.  A grid of
    a different but compatible shape is broadcast silently. *)
Theorem shape_mismatch_broadcast E args gt cslc w :
  (cslc < length (heap w))%nat ->
  let A := nth cslc (heap w) empty_array in
  let N := get_resampled_noise_correction E (cslc_static_path args) (shape A) gt in
  let Rn := get_radiometric_normalization_correction E (cslc_static_path args) in
  ((exists e w', correct_amplitude E args gt cslc w = (inl e, w')) <->
   match (if apply_noise_correction args then
            match bdim (nrows A) (nrows N), bdim (ncols A) (ncols N) with
            | Some r, Some c => Some (r, c)
            | _, _ => None
            end
          else Some (nrows A, ncols A)) with
   | None => True
   | Some (r, c) =>
       apply_radiometric_normalization args = true
       /\ ~ (bdim r (nrows Rn) = Some r /\ bdim c (ncols Rn) = Some c)
   end)
  /\
  (forall e w', correct_amplitude E args gt cslc w = (inl e, w') ->
     e = ValueError /\
     exists evs, trace w' = trace w ++ evs /\ Forall (fun ev => is_read ev = true) evs).
Proof.
  intros Hc A N Rn. split.
  - pose proof (correct_amplitude_fails E args gt cslc w Hc) as Hf.
    fold A N Rn in Hf. rewrite Hf. apply corrected_none.
  - intros e w' Hrun. split.
    + pose proof (correct_amplitude_run E args gt cslc w Hc) as H. simpl in H.
      destruct (corrected _ _ _ _ _) as [C|].
      * destruct H as (cur0 & w0 & Hr & _). rewrite Hrun in Hr; discriminate.
      * destruct H as (w0 & Hr). rewrite Hrun in Hr; injection Hr; intros; subst; reflexivity.
    + destruct (correct_amplitude_trace E args gt cslc w _ _ Hrun) as (evs & Ht & Hf & _).
      exists evs; split; assumption.
Qed.

(** X1: [main] completes without an exception only when both corrections
    are disabled, and then it changes nothing: any run that requests a
    correction ends in an exception (the EPSG argument is the geotransform,
    which [ImportFromEPSG] or [SetGeoTransform] rejects). *)
Theorem main_fails_unless_noop E args w w' :
  main E args w = (inr tt, w') ->
  apply_noise_correction args = false /\ apply_radiometric_normalization args = false
  /\ w' = w.
Proof.
  unfold main.
  destruct (apply_noise_correction args) eqn:Hn, (apply_radiometric_normalization args) eqn:Hr;
    simpl.
  4: { intros H; injection H; intros; subst; auto. }
  all: unfold bind; destruct (prepare E args w) as [[e|[[arr gt] epsg]] w1] eqn:Hp;
    [discriminate|].
  all: destruct (prepare_args _ _ _ _ _ _ _ Hp) as [Hg He]; rewrite He, <- Hg;
    destruct (save_amplitude_same_arg E arr gt (out_path args) w1) as (e & w2 & Hs & _);
    rewrite Hs; discriminate.
Qed.

Lemma shape_mismatch_broadcast_witness :
  let A := mk_ndarray 2 2 [Fin 1; Fin 2; Fin 3; Fin 4] in
  let N := mk_ndarray 1 2 [Fin 0; Fin 0] in
  let Rn := mk_ndarray 3 1 [Fin 1; Fin 1; Fin 1] in
  exists w', correct_amplitude (env_with A N Rn) (args_with true true) gt0 0%nat
               (world_with A) = (inl ValueError, w').
Proof.
  intros A N Rn.
  destruct (shape_mismatch_broadcast (env_with A N Rn) (args_with true true) gt0 0%nat
              (world_with A) ltac:(simpl; lia)) as [H1 H2].
  destruct (proj2 H1) as (e & w' & He).
  - vm_compute. split; [reflexivity | intros [H _]; discriminate].
  - exists w'. destruct (H2 e w' He) as [Hv _]. rewrite <- Hv. exact He.
Defined.

Lemma main_fails_unless_noop_witness :
  apply_noise_correction (args_with false false) = false
  /\ apply_radiometric_normalization (args_with false false) = false
  /\ mk_world [] [] = mk_world [] [].
Proof.
  exact (main_fails_unless_noop E0 (args_with false false) (mk_world [] []) (mk_world [] [])
           eq_refl).
Defined.

(** X2: no run of [main] ever writes a raster: the events it adds are
    reads, and at most the creation of the output file. *)
Theorem main_never_writes_raster E args w r w' :
  main E args w = (r, w') ->
  exists evs, trace w' = trace w ++ evs
    /\ Forall (fun ev => is_read ev = true \/ ev = CreateFile (out_path args)) evs.
Proof.
  unfold main.
  destruct (_ && _)%bool.
  - intros H; injection H; intros; subst; exists []; rewrite app_nil_r; auto.
  - unfold bind; destruct (prepare E args w) as [[e|[[arr gt] epsg]] w1] eqn:Hp;
      destruct (prepare_trace _ _ _ _ _ Hp) as (evs & Ht & Hf).
    + intros H; injection H; intros; subst. exists evs; split; [exact Ht|].
      eapply Forall_impl; [|exact Hf]; auto.
    + destruct (prepare_args _ _ _ _ _ _ _ Hp) as [Hg He]; rewrite He, <- Hg.
      destruct (save_amplitude_same_arg E arr gt (out_path args) w1)
        as (e & w2 & Hs & evs2 & Ht2 & Hf2).
      rewrite Hs; intros H; injection H; intros; subst.
      exists (evs ++ evs2); split; [rewrite Ht2, Ht, app_assoc; reflexivity|].
      apply Forall_app; split; eapply Forall_impl; try eassumption; auto.
Qed.

Lemma main_never_writes_raster_witness :
  exists evs, trace (snd (main E0 (args_with true true) (mk_world [] []))) = [] ++ evs
    /\ Forall (fun ev => is_read ev = true \/ ev = CreateFile "t_out.tif"%string) evs.
Proof.
  exact (main_never_writes_raster E0 (args_with true true) (mk_world [] []) _ _
           (surjective_pairing _)).
Defined.

(** X6: a successful [prepare] reads, in this order: the amplitude, the
    geotransform of the CSLC dataset, the noise LUT from the static file
    (only when noise correction is on), the radiometric factor (only when
    normalization is on), and the geotransform once more for the EPSG
    argument; it writes nothing. *)
Theorem prepare_read_order E args w res w' :
  prepare E args w = (inr res, w') ->
  trace w' = trace w ++
    [ReadAmplitude (cslc_path args) (pol args);
     ReadGeotransform (cslc_path args) (cslc_dataset_path E args)]
    ++ (if apply_noise_correction args then [ReadNoise (cslc_static_path args)] else [])
    ++ (if apply_radiometric_normalization args
        then [ReadRadiometric (cslc_static_path args)] else [])
    ++ [ReadGeotransform (cslc_path args) (cslc_dataset_path E args)].
Proof.
  unfold prepare, bind, read_amplitude, read_geotransform, emit, alloc, ret, load; simpl.
  destruct (correct_amplitude _ _ _ _ _) as [[e|cur] w1] eqn:Hc; [discriminate|].
  apply correct_amplitude_trace in Hc as (evs & Ht & _ & Hev); simpl in Ht.
  rewrite (Hev cur eq_refl) in Ht.
  intros H; injection H; intros; subst; simpl.
  rewrite Ht, <- !app_assoc; reflexivity.
Qed.

Lemma prepare_read_order_witness :
  let E := env_with empty_array empty_array empty_array in
  trace (snd (prepare E (args_with true true) (mk_world [] []))) = [] ++
    [ReadAmplitude "t_cslc.h5"%string "VV"%string;
     ReadGeotransform "t_cslc.h5"%string (cslc_dataset_path E (args_with true true))]
    ++ [ReadNoise "t_static.h5"%string] ++ [ReadRadiometric "t_static.h5"%string]
    ++ [ReadGeotransform "t_cslc.h5"%string (cslc_dataset_path E (args_with true true))].
Proof.
  intros E.
  assert (H : exists r, prepare E (args_with true true) (mk_world [] []) =
                (inr r, snd (prepare E (args_with true true) (mk_world [] []))))
    by (eexists; vm_compute; reflexivity).
  destruct H as [r H].
  exact (prepare_read_order E (args_with true true) (mk_world [] []) r _ H).
Defined.

(** ** Pixelwise form of the correction, with broadcasting *)

Lemma bdim_bcast m d : bfits d m -> bdim m d = Some m.
Proof.
  unfold bfits, bdim; intros [-> | ->]; [rewrite Nat.eqb_refl; reflexivity|].
  destruct (Nat.eqb_spec m 1); [subst; reflexivity|].
  rewrite Nat.eqb_refl; reflexivity.
Qed.

Lemma bin_bcast f a b :
  wf a -> bfits (nrows b) (nrows a) -> bfits (ncols b) (ncols a) ->
  exists c, bin f a b = Some c /\ shape c = shape a /\ wf c /\
    forall i j x, (i < nrows a)%nat -> (j < ncols a)%nat -> item a i j = Some x ->
      item c i j = Some (f x (bget b i j)).
Proof.
  intros Ha Hr Hc.
  destruct (bin f a b) as [c|] eqn:Hb.
  - destruct (bin_shape _ _ _ _ Hb) as (H1 & H2 & Hw).
    rewrite bdim_bcast in H1, H2 by assumption.
    injection H1; injection H2; intros E2 E1.
    exists c; split; [reflexivity|split; [unfold shape; rewrite E1, E2; reflexivity|]].
    split; [exact Hw|]. intros i j x Hi Hj Hx.
    rewrite (bin_item _ _ _ _ _ _ Hb) by lia.
    rewrite bget_item in Hx by assumption. injection Hx; intros ->; reflexivity.
  - unfold bin in Hb; rewrite !bdim_bcast in Hb by assumption; discriminate.
Qed.

Lemma imul_bcast a b :
  wf a -> bfits (nrows b) (nrows a) -> bfits (ncols b) (ncols a) ->
  exists c, imul a b = Some c /\ shape c = shape a /\ wf c /\
    forall i j x, (i < nrows a)%nat -> (j < ncols a)%nat -> item a i j = Some x ->
      item c i j = Some (fmul x (bget b i j)).
Proof.
  intros Ha Hr Hc.
  destruct (bin_bcast fmul a b Ha Hr Hc) as (c & Hb & Hs & Hw & Hpix).
  exists c; unfold imul; rewrite Hb.
  unfold shape in Hs; injection Hs; intros E2 E1; rewrite E1, E2, !Nat.eqb_refl.
  split; [reflexivity|split; [unfold shape; rewrite E1, E2; reflexivity|auto]].
Qed.

(** [corrected] for noise and radiometric grids that broadcast to the
    shape of [A]: pixel [(i, j)] is [pixel_correct] of the amplitude and
    the broadcast values of the two grids. *)
Lemma corrected_bcast nf rf A N Rn :
  wf A ->
  bfits (nrows N) (nrows A) -> bfits (ncols N) (ncols A) ->
  bfits (nrows Rn) (nrows A) -> bfits (ncols Rn) (ncols A) ->
  exists C, corrected nf rf A N Rn = Some C /\ shape C = shape A /\ wf C /\
    forall i j x, (i < nrows A)%nat -> (j < ncols A)%nat -> item A i j = Some x ->
      item C i j = Some (pixel_correct nf rf x (bget N i j) (bget Rn i j)).
Proof.
  intros HA HNr HNc HRr HRc.
  assert (H1 : exists A1, (if nf then noise_step A N else Some A) = Some A1 /\
                 shape A1 = shape A /\ wf A1 /\
                 forall i j x, (i < nrows A)%nat -> (j < ncols A)%nat -> item A i j = Some x ->
                   item A1 i j = Some (if nf then fsqrt (clamp (fsub (fsq x) (bget N i j)))
                                       else x)).
  { destruct nf; [|exists A; auto].
    destruct (bin_bcast fsub (amap fsq A) N (amap_wf _ _ HA) HNr HNc)
      as (D & Hb & Hs & Hw & Hpix).
    exists (amap fsqrt (amap clamp D)); unfold noise_step; rewrite Hb.
    split; [reflexivity|split; [exact Hs|split; [apply amap_wf, amap_wf, Hw|]]].
    intros i j x Hi Hj Hx. rewrite !amap_item, (Hpix i j (fsq x)) by
      (try assumption; rewrite amap_item, Hx; reflexivity).
    reflexivity. }
  destruct H1 as (A1 & Hn & Hs1 & Hw1 & Hp1).
  unfold corrected; rewrite Hn.
  unfold shape in Hs1; injection Hs1; intros E2 E1.
  destruct rf.
  - destruct (imul_bcast A1 Rn Hw1) as (C & Hi & Hs & Hw & Hpix); [congruence|congruence|].
    exists C; unfold radiometric_step; rewrite Hi.
    split; [reflexivity|split; [unfold shape in *; congruence|split; [exact Hw|]]].
    intros i j x Hi' Hj Hx. rewrite (Hpix i j _ ltac:(lia) ltac:(lia) (Hp1 i j x Hi' Hj Hx)).
    reflexivity.
  - exists A1; split; [reflexivity|split; [unfold shape; congruence|split; [exact Hw1|]]].
    intros i j x Hi Hj Hx; rewrite (Hp1 i j x Hi Hj Hx); reflexivity.
Qed.

Lemma correct_amplitude_bcast E args gt cslc w :
  (cslc < length (heap w))%nat ->
  let A := nth cslc (heap w) empty_array in
  let N := get_resampled_noise_correction E (cslc_static_path args) (shape A) gt in
  let Rn := get_radiometric_normalization_correction E (cslc_static_path args) in
  wf A ->
  bfits (nrows N) (nrows A) -> bfits (ncols N) (ncols A) ->
  bfits (nrows Rn) (nrows A) -> bfits (ncols Rn) (ncols A) ->
  exists cur w', correct_amplitude E args gt cslc w = (inr cur, w') /\
    let A' := nth cur (heap w') empty_array in
    shape A' = shape A /\ wf A' /\
    forall i j x, (i < nrows A)%nat -> (j < ncols A)%nat -> item A i j = Some x ->
      item A' i j = Some (pixel_correct (apply_noise_correction args)
                            (apply_radiometric_normalization args) x (bget N i j) (bget Rn i j)).
Proof.
  intros Hc A N Rn HA H1 H2 H3 H4.
  pose proof (correct_amplitude_run E args gt cslc w Hc) as Hrun; simpl in Hrun.
  fold A N Rn in Hrun.
  destruct (corrected_bcast (apply_noise_correction args) (apply_radiometric_normalization args)
              A N Rn HA H1 H2 H3 H4) as (C & Hcor & Hs & Hw & Hpix).
  rewrite Hcor in Hrun. destruct Hrun as (cur & w' & Hr & Hn).
  exists cur, w'; split; [exact Hr|]; simpl; rewrite Hn; auto.
Qed.

Lemma bfits_same_shape a b :
  shape b = shape a -> bfits (nrows b) (nrows a) /\ bfits (ncols b) (ncols a).
Proof. unfold shape, bfits; intros H; injection H; intros -> ->; auto. Qed.

Lemma bget_same a b i j x :
  wf b -> shape b = shape a -> (i < nrows a)%nat -> (j < ncols a)%nat ->
  item b i j = Some x -> bget b i j = x.
Proof.
  unfold shape; intros Hw Hs Hi Hj Hx; injection Hs; intros E2 E1.
  rewrite bget_item in Hx by (try assumption; lia). injection Hx; auto.
Qed.

Lemma pixel_correct_nan nf rf x y z :
  x = NaN \/ (nf = true /\ y = NaN) \/ (rf = true /\ z = NaN) ->
  pixel_correct nf rf x y z = NaN.
Proof.
  unfold pixel_correct.
  intros H; destruct x as [a|], y as [b|], z as [c|], nf, rf; simpl;
    try (rewrite sqrt_clamp); simpl; try reflexivity; intuition discriminate.
Qed.

(** X7: for noise and radiometric grids of the shape of the amplitude grid
    (whatever the flags and whatever the values, NaN included), the
    correction succeeds, keeps the shape, and computes pixel [(i, j)] from
    [A[i,j]], [N[i,j]] and [R[i,j]] alone: square, subtract the noise,
    clamp at 0 and take the square root if noise correction is on, then
    multiply by the factor if normalization is on. *)
Theorem correct_amplitude_pixelwise E args gt cslc w :
  (cslc < length (heap w))%nat ->
  let A := nth cslc (heap w) empty_array in
  let N := get_resampled_noise_correction E (cslc_static_path args) (shape A) gt in
  let Rn := get_radiometric_normalization_correction E (cslc_static_path args) in
  wf A -> wf N -> wf Rn -> shape N = shape A -> shape Rn = shape A ->
  exists cur w', correct_amplitude E args gt cslc w = (inr cur, w') /\
    let A' := nth cur (heap w') empty_array in
    shape A' = shape A /\ wf A' /\
    forall i j x y z, (i < nrows A)%nat -> (j < ncols A)%nat ->
      item A i j = Some x -> item N i j = Some y -> item Rn i j = Some z ->
      item A' i j = Some (pixel_correct (apply_noise_correction args)
                            (apply_radiometric_normalization args) x y z).
Proof.
  intros Hc; cbv zeta; intros HA HN HR HsN HsR.
  destruct (bfits_same_shape _ _ HsN) as [H1 H2].
  destruct (bfits_same_shape _ _ HsR) as [H3 H4].
  destruct (correct_amplitude_bcast E args gt cslc w Hc HA H1 H2 H3 H4)
    as (cur & w' & Hr & Hs & Hw & Hpix).
  exists cur, w'; split; [exact Hr|]; simpl; split; [exact Hs|split; [exact Hw|]].
  intros i j x y z Hi Hj Hx Hy Hz.
  rewrite (Hpix i j x Hi Hj Hx).
  rewrite (bget_same _ _ i j y HN HsN Hi Hj Hy), (bget_same _ _ i j z HR HsR Hi Hj Hz).
  reflexivity.
Qed.

(** X9: NaN is never cleaned up: with grids of the same shape, an output
    pixel is NaN when the amplitude pixel is NaN, or the noise pixel is NaN
    with noise correction on, or the factor is NaN with normalization on
    (the clamp [a[a < 0.0] = 0.0] leaves NaN in place). *)
Theorem correct_amplitude_nan E args gt cslc w :
  (cslc < length (heap w))%nat ->
  let A := nth cslc (heap w) empty_array in
  let N := get_resampled_noise_correction E (cslc_static_path args) (shape A) gt in
  let Rn := get_radiometric_normalization_correction E (cslc_static_path args) in
  wf A -> wf N -> wf Rn -> shape N = shape A -> shape Rn = shape A ->
  exists cur w', correct_amplitude E args gt cslc w = (inr cur, w') /\
    forall i j x y z, (i < nrows A)%nat -> (j < ncols A)%nat ->
      item A i j = Some x -> item N i j = Some y -> item Rn i j = Some z ->
      (x = NaN \/ (apply_noise_correction args = true /\ y = NaN)
       \/ (apply_radiometric_normalization args = true /\ z = NaN)) ->
      item (nth cur (heap w') empty_array) i j = Some NaN.
Proof.
  intros Hc; cbv zeta; intros HA HN HR HsN HsR.
  destruct (bfits_same_shape _ _ HsN) as [H1 H2].
  destruct (bfits_same_shape _ _ HsR) as [H3 H4].
  destruct (correct_amplitude_bcast E args gt cslc w Hc HA H1 H2 H3 H4)
    as (cur & w' & Hr & _ & _ & Hpix).
  exists cur, w'; split; [exact Hr|].
  intros i j x y z Hi Hj Hx Hy Hz.
  rewrite (Hpix i j x Hi Hj Hx).
  rewrite (bget_same _ _ i j y HN HsN Hi Hj Hy), (bget_same _ _ i j z HR HsR Hi Hj Hz).
  intros Hn. rewrite (pixel_correct_nan _ _ _ _ _ Hn); reflexivity.
Qed.

(** X10: numpy broadcasting of the correction grids: a noise or
    radiometric grid each of whose dimensions is that of the amplitude grid
    or 1 (a single row, a single column, a 1x1 grid) is stretched over the
    amplitude grid; the correction succeeds, keeps the amplitude grid's
    shape, and pixel [(i, j)] uses row 0 (column 0) of a grid along each of
    its dimensions of size 1. *)
Theorem correct_amplitude_broadcast E args gt cslc w :
  (cslc < length (heap w))%nat ->
  let A := nth cslc (heap w) empty_array in
  let N := get_resampled_noise_correction E (cslc_static_path args) (shape A) gt in
  let Rn := get_radiometric_normalization_correction E (cslc_static_path args) in
  wf A -> wf N -> wf Rn ->
  (nrows N = nrows A \/ nrows N = 1%nat) -> (ncols N = ncols A \/ ncols N = 1%nat) ->
  (nrows Rn = nrows A \/ nrows Rn = 1%nat) -> (ncols Rn = ncols A \/ ncols Rn = 1%nat) ->
  exists cur w', correct_amplitude E args gt cslc w = (inr cur, w') /\
    let A' := nth cur (heap w') empty_array in
    shape A' = shape A /\
    forall i j x y z, (i < nrows A)%nat -> (j < ncols A)%nat ->
      item A i j = Some x ->
      item N (if Nat.eqb (nrows N) 1 then 0%nat else i)
             (if Nat.eqb (ncols N) 1 then 0%nat else j) = Some y ->
      item Rn (if Nat.eqb (nrows Rn) 1 then 0%nat else i)
              (if Nat.eqb (ncols Rn) 1 then 0%nat else j) = Some z ->
      item A' i j = Some (pixel_correct (apply_noise_correction args)
                            (apply_radiometric_normalization args) x y z).
Proof.
  intros Hc A N Rn HA HN HR H1 H2 H3 H4.
  destruct (correct_amplitude_bcast E args gt cslc w Hc HA H1 H2 H3 H4)
    as (cur & w' & Hr & Hs & _ & Hpix).
  exists cur, w'; split; [exact Hr|]; simpl; split; [exact Hs|].
  intros i j x y z Hi Hj Hx Hy Hz.
  rewrite (Hpix i j x Hi Hj Hx).
  unfold item, bget in *.
  rewrite (nth_error_nth _ _ _ Hy), (nth_error_nth _ _ _ Hz). reflexivity.
Qed.

Lemma correct_amplitude_pixelwise_witness :
  exists cur w', correct_amplitude E0 (args_with true true) gt0 0%nat (world_with amp0)
                 = (inr cur, w')
    /\ shape (nth cur (heap w') empty_array) = (1, 2)%nat.
Proof.
  pose proof (correct_amplitude_pixelwise E0 (args_with true true) gt0 0%nat (world_with amp0))
    as H; cbv zeta in H.
  specialize (H ltac:(simpl; lia) eq_refl eq_refl eq_refl eq_refl eq_refl).
  destruct H as (cur & w' & Hr & Hs & _). exists cur, w'; split; [exact Hr|exact Hs].
Defined.

Lemma correct_amplitude_nan_witness :
  let A := mk_ndarray 1 2 [NaN; Fin 4] in
  exists cur w', correct_amplitude (env_with A noise0 radio0) (args_with true true) gt0 0%nat
                   (world_with A) = (inr cur, w')
    /\ item (nth cur (heap w') empty_array) 0 0 = Some NaN.
Proof.
  intros A.
  pose proof (correct_amplitude_nan (env_with A noise0 radio0) (args_with true true) gt0 0%nat
                (world_with A)) as H; cbv zeta in H.
  specialize (H ltac:(simpl; lia) eq_refl eq_refl eq_refl eq_refl eq_refl).
  destruct H as (cur & w' & Hr & Hn). exists cur, w'; split; [exact Hr|].
  apply (Hn 0%nat 0%nat NaN (Fin 0) (Fin 1) ltac:(simpl; lia) ltac:(simpl; lia)
           eq_refl eq_refl eq_refl).
  left; reflexivity.
Defined.

Lemma correct_amplitude_broadcast_witness :
  let A := mk_ndarray 2 2 [Fin 1; Fin 2; Fin 3; Fin 4] in
  let N := mk_ndarray 1 2 [Fin 0; Fin 1] in
  let Rn := mk_ndarray 1 1 [Fin 2] in
  exists cur w', correct_amplitude (env_with A N Rn) (args_with true true) gt0 0%nat
                   (world_with A) = (inr cur, w')
    /\ shape (nth cur (heap w') empty_array) = (2, 2)%nat.
Proof.
  intros A N Rn.
  pose proof (correct_amplitude_broadcast (env_with A N Rn) (args_with true true) gt0 0%nat
                (world_with A)) as H; cbv zeta in H.
  specialize (H ltac:(simpl; lia) eq_refl eq_refl eq_refl
                (or_intror eq_refl) (or_introl eq_refl) (or_intror eq_refl) (or_intror eq_refl)).
  destruct H as (cur & w' & Hr & Hs & _). exists cur, w'; split; [exact Hr|exact Hs].
Defined.
